(** * ATSP environment (rl4co/envs/atsp.py): model and verified properties
    The tensors of the source are modelled as nested lists: a batch of
    distance matrices of shape (B, N, N) is a [list matrix], the integer
    tensors of shape (B, 1) are [list Z], the mask of shape (B, 1, N) is a
    [list (list bool)].  Distances are exact rationals: rounding of the
    float32 arithmetic is not modelled.  Python exceptions are an explicit
    error result; the [while True] loop of [generate_data] takes fuel. *)

From Stdlib Require Import String.
From Stdlib Require Import List ListDec ZArith QArith Qminmax Lia Lqa Bool PeanoNat.
From Stdlib Require Import Permutation Sorted.
Import ListNotations.

Set Implicit Arguments.

(** * Model *)

(** ** Exceptions and results *)

Inductive exn : Type :=
| AssertionError (msg : string)
| IndexError
| RuntimeError.

Inductive res (A : Type) : Type :=
| Ok (a : A)
| Raise (e : exn).

Arguments Ok {A} a.
Arguments Raise {A} e.

Definition bind {A B : Type} (c : res A) (k : A -> res B) : res B :=
  match c with
  | Ok a => k a
  | Raise e => Raise e
  end.

Notation "x <- c ;; k" := (bind c (fun x => k))
  (at level 61, c at next level, right associativity).

Fixpoint mapM {A B : Type} (f : A -> res B) (l : list A) : res (list B) :=
  match l with
  | [] => Ok []
  | a :: r => b <- f a ;; bs <- mapM f r ;; Ok (b :: bs)
  end.

(** ** Tensors *)

Abbreviation matrix := (list (list Q)).

(** [d[i, j]] for indices inside the shape. *)
Definition entry (d : matrix) (i j : nat) : Q := nth j (nth i d []) 0%Q.

(** The (N, N) tensor whose entry (i, j) is [f i j]. *)
Definition tabulate (N : nat) (f : nat -> nat -> Q) : matrix :=
  map (fun i => map (fun j => f i j) (seq 0 N)) (seq 0 N).

(** [torch.arange(n)] as an int64 tensor. *)
Definition arange (n : nat) : list Z := map Z.of_nat (seq 0 n).

(** [torch.rand((B, N, N), generator=rng)]: the generator is the stream of
    its samples in [0, 1), consumed in row-major order. *)
Definition rand (rng : nat -> Q) (B N : nat) : list matrix :=
  map (fun b => tabulate N (fun i j => rng ((b * N + i) * N + j)%nat)) (seq 0 B).

(** [dms[..., arange(N), arange(N)] = 0] on one matrix of the batch. *)
Definition zero_diag (N : nat) (d : matrix) : matrix :=
  tabulate N (fun i j => if Nat.eqb i j then 0%Q else entry d i j).

(** Minimum of a non-empty last dimension. *)
Definition amin (l : list Q) : Q :=
  match l with
  | [] => 0%Q
  | x :: r => fold_left Qmin r x
  end.

(** One instance of
    [(dms[..., :, None, :] + dms[..., None, :, :].transpose(-2,-1)).min(dim=-1)]:
    the summed tensor holds [d[i, k] + d[k, j]] at (i, j, k), the minimum runs
    over k. *)
Definition relax (N : nat) (d : matrix) : matrix :=
  tabulate N (fun i j => amin (map (fun k => entry d i k + entry d k j)%Q (seq 0 N))).

(** The whole batch; [min] over a dimension of size zero raises. *)
Definition relax_pass (N : nat) (dms : list matrix) : res (list matrix) :=
  if Nat.eqb N 0 then Raise IndexError else Ok (map (relax N) dms).

(** [(a == b).all()] on tensors of shape (N, N) and (B, N, N). *)
Definition matrix_eqb (N : nat) (a b : matrix) : bool :=
  forallb (fun i => forallb (fun j => Qeq_bool (entry a i j) (entry b i j)) (seq 0 N))
          (seq 0 N).

Definition batch_eqb (N : nat) (a b : list matrix) : bool :=
  forallb (fun p => matrix_eqb N (fst p) (snd p)) (combine a b).

(** The [while True] loop of [generate_data]; [None] is fuel exhausted. *)
Fixpoint closure_loop (fuel N : nat) (dms : list matrix) : option (res (list matrix)) :=
  match fuel with
  | O => None
  | S fuel' =>
      let old_dms := dms in
      match relax_pass N dms with
      | Raise e => Some (Raise e)
      | Ok dms' =>
          if batch_eqb N dms' old_dms then Some (Ok dms')
          else closure_loop fuel' N dms'
      end
  end.

(** ** The environment *)

Record ATSPEnv : Type := {
  num_loc : Z;
  min_dist : Q;
  max_dist : Q;
  rng : nat -> Q;          (* samples of self.rng *)
  batch_size : nat         (* self.batch_size *)
}.

(** The matrix before closure:
    [rand * (max_dist - min_dist) + min_dist], then the zero diagonal. *)
Definition draw (self : ATSPEnv) (B N : nat) : list matrix :=
  map (zero_diag N)
      (map (map (map (fun u => u * (max_dist self - min_dist self) + min_dist self)%Q))
           (rand (rng self) B N)).

(** [generate_data]; a negative dimension makes [torch.rand] raise. *)
Definition generate_data (fuel : nat) (self : ATSPEnv) (B : nat)
  : option (res (list matrix)) :=
  if (num_loc self <? 0)%Z then Some (Raise RuntimeError)
  else closure_loop fuel (Z.to_nat (num_loc self)) (draw self B (Z.to_nat (num_loc self))).

(** ** Episode state *)

Record TensorDict : Type := {
  td_observation : list matrix;
  td_first_node : list Z;
  td_current_node : list Z;
  td_i : list Z;
  td_action_mask : list (list bool)
}.

Inductive efloat : Type :=
| NegInf
| Real (q : Q).

(** The ["next"] entry returned by [_step]. *)
Record NextDict : Type := {
  next : TensorDict;
  reward : list efloat;
  done : list bool
}.

(** int64 addition wraps. *)
Definition wrap64 (z : Z) : Z := ((z + 2 ^ 63) mod 2 ^ 64 - 2 ^ 63)%Z.

Fixpoint update {A : Type} (l : list A) (n : nat) (v : A) : list A :=
  match l, n with
  | [], _ => []
  | _ :: r, O => v :: r
  | x :: r, S n' => x :: update r n' v
  end.

(** [m.scatter(-1, index, v)] on one row: every index is written in turn; an
    index outside [0, len(m)) raises. *)
Fixpoint scatter (m : list bool) (index : list Z) (v : bool) : res (list bool) :=
  match index with
  | [] => Ok m
  | z :: rest =>
      if ((0 <=? z) && (z <? Z.of_nat (length m)))%Z
      then scatter (update m (Z.to_nat z) v) rest v
      else Raise RuntimeError
  end.

(** [torch.count_nonzero] of a boolean row. *)
Definition count_nonzero (m : list bool) : nat := length (filter (fun b => b) m).

Section Step.

(** [rl4co.envs.utils.batch_to_scalar] is not part of the sources at hand:
    it is a parameter of the transition function. *)
Variable batch_to_scalar : list Z -> res Z.

(** [td] carries the state keys, [action] is [td["action"]].  [done] is
    given instance by instance: [squeeze] changes the shape of the mask, not
    its entries. *)
Definition _step (td : TensorDict) (action : list Z) : res NextDict :=
  let current_node := action in
  s <- batch_to_scalar (td_i td) ;;
  let first_node := if (s =? 0)%Z then current_node else td_first_node td in
  available <-
    mapM (fun p => scatter (fst p) (repeat (snd p) (length (fst p))) false)
         (combine (td_action_mask td) current_node) ;;
  let done := map (fun m => Nat.leb (count_nonzero m) 0) available in
  let reward := map (fun _ : bool => NegInf) done in
  Ok {| next := {| td_observation := td_observation td;
                   td_first_node := first_node;
                   td_current_node := current_node;
                   td_i := map (fun z => wrap64 (z + 1)) (td_i td);
                   td_action_mask := available |};
        reward := reward;
        done := done |}.

End Step.

(** [_reset]: [td] and [init_obs] are the optional arguments of the source,
    [batch_size] the optional batch size.  A negative [num_loc] makes
    [torch.ones] raise; the final [TensorDict] constructor rejects an
    observation whose batch dimension is not [batch_size]. *)
Definition _reset (fuel : nat) (self : ATSPEnv) (td : option TensorDict)
    (init_obs : option (list matrix)) (batch_size_arg : option nat)
  : option (res TensorDict) :=
  let init_dm :=
    match td with
    | Some t => Some (td_observation t)
    | None => init_obs
    end in
  let B :=
    match batch_size_arg with
    | Some b => b
    | None =>
        match init_dm with
        | None => batch_size self
        | Some dm => length dm
        end
    end in
  let generated :=
    match init_dm with
    | None => generate_data fuel self B
    | Some dm => Some (Ok dm)
    end in
  match generated with
  | None => None
  | Some (Raise e) => Some (Raise e)
  | Some (Ok dm) =>
      if (num_loc self <? 0)%Z then Some (Raise RuntimeError)
      else if negb (Nat.eqb (length dm) B) then Some (Raise RuntimeError)
      else
        let current_node := repeat 0%Z B in
        let available := repeat (repeat true (Z.to_nat (num_loc self))) B in
        let i := repeat 0%Z B in
        Some (Ok {| td_observation := dm;
                    td_first_node := current_node;
                    td_current_node := current_node;
                    td_i := i;
                    td_action_mask := available |})
  end.

(** ** Reward *)

(** [actions.sort(1)[0]] on one row. *)
Fixpoint insert (x : Z) (l : list Z) : list Z :=
  match l with
  | [] => [x]
  | y :: r => if (x <=? y)%Z then x :: y :: r else y :: insert x r
  end.

Fixpoint sort (l : list Z) : list Z :=
  match l with
  | [] => []
  | x :: r => insert x (sort r)
  end.

Fixpoint list_eqb (a b : list Z) : bool :=
  match a, b with
  | [], [] => true
  | x :: a', y :: b' => (x =? y)%Z && list_eqb a' b'
  | _, _ => false
  end.

(** [torch.roll(a, shift, dims=1)] on one row. *)
Definition roll (shift : nat) (a : list Z) : list Z :=
  let n := length a in
  skipn (n - shift mod n) a ++ firstn (n - shift mod n) a.

(** An integer index into a dimension of size [n]; negative indices count
    from the end. *)
Definition index_dim (n : nat) (z : Z) : res nat :=
  if ((0 <=? z) && (z <? Z.of_nat n))%Z then Ok (Z.to_nat z)
  else if ((- Z.of_nat n <=? z) && (z <? 0))%Z then Ok (Z.to_nat (z + Z.of_nat n))
  else Raise IndexError.

(** [d[s, t]] with integer tensors as indices. *)
Definition gather (d : matrix) (s t : Z) : res Q :=
  r <- index_dim (length d) s ;;
  c <- index_dim (length (nth r d [])) t ;;
  Ok (entry d r c).

Definition gather_row (d : matrix) (src tgt : list Z) : res (list Q) :=
  mapM (fun p => gather d (fst p) (snd p)) (combine src tgt).

(** [distance_matrix[batch_idx, nodes_src, nodes_tgt]]: [batch_idx] of shape
    (Bd, 1) is broadcast against the (B, N) index tensors. *)
Definition index_batch (dms : list matrix) (src tgt : list (list Z))
  : res (list (list Q)) :=
  if Nat.eqb (length dms) (length src) then
    mapM (fun p => gather_row (fst p) (fst (snd p)) (snd (snd p)))
         (combine dms (combine src tgt))
  else if Nat.eqb (length dms) 1 then
    mapM (fun p => gather_row (hd [] dms) (fst p) (snd p)) (combine src tgt)
  else if Nat.eqb (length src) 1 then
    mapM (fun d => gather_row d (hd [] src) (hd [] tgt)) dms
  else Raise IndexError.

(** [.sum(-1)]. *)
Definition sum (l : list Q) : Q := fold_left Qplus l 0%Q.

Definition valid_tour (a : list Z) : bool := list_eqb (arange (length a)) (sort a).

Definition get_reward (td : TensorDict) (actions : list (list Z)) : res (list Q) :=
  let distance_matrix := td_observation td in
  if negb (forallb valid_tour actions) then Raise (AssertionError "Invalid tour")
  else
    let nodes_src := actions in
    let nodes_tgt := map (roll 1) actions in
    g <- index_batch distance_matrix nodes_src nodes_tgt ;;
    Ok (map sum g).

(** ** Scenario A *)

(** The matrix of the scenario, three nodes, one instance. *)
Definition scenario_matrix : matrix :=
  [[0; 2; 9]; [1; 0; 3]; [4; 5; 0]]%Q.

(** An instance of [batch_to_scalar]: the first element of the batch. *)
Definition first_elem (l : list Z) : res Z :=
  match l with
  | [] => Raise IndexError
  | z :: _ => Ok z
  end.

(** Three nodes, the default bounds, a generator that always yields 1/2. *)
Definition env3 : ATSPEnv :=
  {| num_loc := 3; min_dist := 0; max_dist := 1; rng := fun _ => (1 # 2)%Q;
     batch_size := 1 |}.

(** The same with samples 1/2, 1/3, 1/4, ... *)
Definition env3_harmonic : ATSPEnv :=
  {| num_loc := 3; min_dist := 0; max_dist := 1;
     rng := fun n => (1 # Pos.of_nat (n + 2))%Q; batch_size := 1 |}.

(** ** One relaxation pass *)

Definition nonneg (N : nat) (d : matrix) : Prop :=
  forall i j, (i < N)%nat -> (j < N)%nat -> (0 <= entry d i j)%Q.

Definition diag_zero (N : nat) (d : matrix) : Prop :=
  forall i, (i < N)%nat -> (entry d i i == 0)%Q.

Definition diag_nonpos (N : nat) (d : matrix) : Prop :=
  forall i, (i < N)%nat -> (entry d i i <= 0)%Q.


Definition matrix_eq (N : nat) (a b : matrix) : Prop :=
  forall i j, (i < N)%nat -> (j < N)%nat -> (entry a i j == entry b i j)%Q.

(** ** The loop *)

Definition passes (t N : nat) (dms : list matrix) : list matrix :=
  Nat.iter t (map (relax N)) dms.

(** ** Walks and the doubling argument *)

(** Weight in [d] of the walk that starts at [u] and then visits [l]. *)
Fixpoint wsum (d : matrix) (u : nat) (l : list nat) : Q :=
  match l with
  | [] => 0
  | v :: r => entry d u v + wsum d v r
  end.

Definition below (N : nat) (l : list nat) : Prop := Forall (fun v => (v < N)%nat) l.

(** [x] only holds weights of walks of [d] ... *)
Definition sound (N : nat) (d x : matrix) : Prop :=
  forall i j, (i < N)%nat -> (j < N)%nat ->
  exists l, below N l /\ last l i = j /\ (wsum d i l == entry x i j)%Q.

(** ... and is below the weight of every walk of at most [L] edges. *)
Definition complete (N : nat) (d : matrix) (L : nat) (x : matrix) : Prop :=
  forall i l, (i < N)%nat -> below N l -> (length l <= L)%nat ->
  (entry x i (last l i) <= wsum d i l)%Q.

(** ** The metric closure *)

Definition metric_input (N : nat) (dms : list matrix) : Prop :=
  forall d, In d dms -> nonneg N d /\ diag_zero N d.

(** ** Errors of the indexing *)

(** Scenario B: four nodes; the tour [0, 1, 1, 3] will be scored on it. *)
Definition invalid_td : TensorDict :=
  {| td_observation := [tabulate 4 (fun _ _ => 1%Q)];
     td_first_node := [0%Z]; td_current_node := [3%Z]; td_i := [4%Z];
     td_action_mask := [[false; false; true; false]] |}.

(** ** Tour cost *)





Definition square (N : nat) (d : matrix) : Prop :=
  length d = N /\ Forall (fun row => length row = N) d.

Definition valid_instance (d : matrix) (a : list Z) : Prop :=
  Permutation a (arange (length a)) /\ square (length a) d.


(** The terminal state of scenario A. *)
Definition scenario_td : TensorDict :=
  {| td_observation := [scenario_matrix];
     td_first_node := [0%Z]; td_current_node := [2%Z]; td_i := [3%Z];
     td_action_mask := [[false; false; false]] |}.

(** ** The transition function *)

(** The action is legal for one instance. *)
Definition legal_at (m : list bool) (a : Z) : Prop :=
  (0 <= a)%Z /\ nth (Z.to_nat a) m false = true.

Definition legal (td : TensorDict) (action : list Z) : Prop :=
  length action = length (td_action_mask td) /\
  forall n, (n < length action)%nat ->
    legal_at (nth n (td_action_mask td) []) (nth n action 0%Z).







(** ** Episodes *)

(** Successive successful steps whose actions satisfy [P]. *)
Inductive steps (P : TensorDict -> list Z -> Prop) (bts : list Z -> res Z)
  : TensorDict -> TensorDict -> Prop :=
| steps_refl : forall td, steps P bts td td
| steps_step : forall td action out td',
    P td action -> _step bts td action = Ok out ->
    steps P bts (next out) td' -> steps P bts td td'.

Definition legal_run := steps legal.

Definition any_run := steps (fun _ _ => True).




(** The states of scenario A after reset and after the actions 0 and 1. *)
Definition scenario_reset : TensorDict :=
  {| td_observation := [scenario_matrix];
     td_first_node := [0%Z]; td_current_node := [0%Z]; td_i := [0%Z];
     td_action_mask := [[true; true; true]] |}.

Definition scenario_step1 : TensorDict :=
  {| td_observation := [scenario_matrix];
     td_first_node := [0%Z]; td_current_node := [0%Z]; td_i := [1%Z];
     td_action_mask := [[false; true; true]] |}.

Definition scenario_step2 : TensorDict :=
  {| td_observation := [scenario_matrix];
     td_first_node := [0%Z]; td_current_node := [1%Z]; td_i := [2%Z];
     td_action_mask := [[false; false; true]] |}.


(** ** The observation *)

Definition supplied (td_arg : option TensorDict) (init_obs : option (list matrix))
  : option (list matrix) :=
  match td_arg with
  | Some t => Some (td_observation t)
  | None => init_obs
  end.

(** A supplied matrix that violates every invariant of a distance matrix. *)
Definition not_a_metric : matrix := [[5; -1]; [100; 7]]%Q.

(** ** Construction parameters *)



(** ** Recorded episodes, partial tours and drawn edges *)

(** A batch whose first instance needs a pass more than the second. *)
Definition mixed_batch : list matrix :=
  [scenario_matrix; [[0; 1; 1]; [1; 0; 1]; [1; 1; 0]]%Q].

(** The instance can be scored: the sequence is a permutation of [0, A) and
    the matrix is N x N with A <= N. *)
Definition scorable (d : matrix) (a : list Z) : Prop :=
  Permutation a (arange (length a)) /\
  exists N, square N d /\ (length a <= N)%nat.



(** Legal steps together with the actions that were taken. *)
Inductive trace (bts : list Z -> res Z)
  : TensorDict -> list (list Z) -> TensorDict -> Prop :=
| trace_nil : forall td, trace bts td [] td
| trace_cons : forall td action out acts td',
    legal td action -> _step bts td action = Ok out ->
    trace bts (next out) acts td' -> trace bts td (action :: acts) td'.










(** * Properties *)


(** ** Lists and tensors *)

Lemma nth_map_seq (A : Type) (f : nat -> A) (N n : nat) (d : A) :
  (n < N)%nat -> nth n (map f (seq 0 N)) d = f n.
Proof.
  intros Hn.
  rewrite (nth_indep _ d (f 0%nat)) by (rewrite length_map, length_seq; exact Hn).
  rewrite (map_nth f (seq 0 N) 0%nat n), seq_nth by exact Hn.
  reflexivity.
Qed.

Lemma entry_tabulate (N : nat) (f : nat -> nat -> Q) (i j : nat) :
  (i < N)%nat -> (j < N)%nat -> entry (tabulate N f) i j = f i j.
Proof.
  intros Hi Hj. unfold entry, tabulate.
  rewrite (nth_map_seq (fun i => map (fun j => f i j) (seq 0 N)) [] Hi).
  apply nth_map_seq. exact Hj.
Qed.

Lemma fold_min_le (l : list Q) (x : Q) :
  (fold_left Qmin l x <= x)%Q /\ (forall y, In y l -> fold_left Qmin l x <= y)%Q.
Proof.
  revert x. induction l as [|a l IH]; intros x; simpl.
  - split; [lra | intros y []].
  - destruct (IH (Qmin x a)) as [H1 H2]. split.
    + pose proof (Q.le_min_l x a). lra.
    + intros y [<- | Hy]; [|auto].
      pose proof (Q.le_min_r x a). lra.
Qed.

Lemma fold_min_in (l : list Q) (x : Q) : In (fold_left Qmin l x) (x :: l).
Proof.
  revert x. induction l as [|a l IH]; intros x; simpl.
  - now left.
  - destruct (IH (Qmin x a)) as [H | H].
    + assert (E : Qmin x a = x \/ Qmin x a = a)
        by (unfold Qmin, GenericMinMax.gmin; destruct (x ?= a)%Q; auto).
      destruct E as [E | E]; [left | right; left]; congruence.
    + auto.
Qed.

Lemma amin_le (l : list Q) (y : Q) : In y l -> (amin l <= y)%Q.
Proof.
  destruct l as [|x l]; intros Hy; [destruct Hy|]. simpl.
  destruct (fold_min_le l x) as [H1 H2].
  destruct Hy as [<- | Hy]; auto.
Qed.

Lemma amin_in (l : list Q) : l <> [] -> In (amin l) l.
Proof.
  destruct l as [|x l]; intros H; [congruence|]. apply fold_min_in.
Qed.

(** ** One relaxation pass *)

Lemma entry_relax (N : nat) (d : matrix) (i j : nat) :
  (i < N)%nat -> (j < N)%nat ->
  entry (relax N d) i j = amin (map (fun k => entry d i k + entry d k j)%Q (seq 0 N)).
Proof. intros Hi Hj. unfold relax. now rewrite entry_tabulate. Qed.

Lemma relax_le (N : nat) (d : matrix) (i j k : nat) :
  (i < N)%nat -> (j < N)%nat -> (k < N)%nat ->
  (entry (relax N d) i j <= entry d i k + entry d k j)%Q.
Proof.
  intros Hi Hj Hk. rewrite entry_relax by assumption.
  apply amin_le. apply in_map_iff. exists k. split; [reflexivity|].
  apply in_seq. lia.
Qed.

Lemma relax_attained (N : nat) (d : matrix) (i j : nat) :
  (i < N)%nat -> (j < N)%nat ->
  exists k, (k < N)%nat /\ entry (relax N d) i j = (entry d i k + entry d k j)%Q.
Proof.
  intros Hi Hj. rewrite entry_relax by assumption.
  assert (Hne : map (fun k => entry d i k + entry d k j)%Q (seq 0 N) <> []).
  { destruct N; [lia|]. simpl. discriminate. }
  apply amin_in in Hne. apply in_map_iff in Hne. destruct Hne as (k & Hk & Hin).
  exists k. split; [apply in_seq in Hin; lia | now symmetry].
Qed.

Lemma relax_nonneg (N : nat) (d : matrix) : nonneg N d -> nonneg N (relax N d).
Proof.
  intros H i j Hi Hj. destruct (relax_attained d Hi Hj) as (k & Hk & ->).
  pose proof (H i k Hi Hk). pose proof (H k j Hk Hj). lra.
Qed.

Lemma relax_diag_nonpos (N : nat) (d : matrix) :
  diag_nonpos N d -> diag_nonpos N (relax N d).
Proof.
  intros H i Hi. pose proof (relax_le d Hi Hi Hi). pose proof (H i Hi). lra.
Qed.

Lemma relax_decreasing (N : nat) (d : matrix) (i j : nat) :
  diag_nonpos N d -> (i < N)%nat -> (j < N)%nat ->
  (entry (relax N d) i j <= entry d i j)%Q.
Proof.
  intros H Hi Hj. pose proof (relax_le d Hi Hj Hi). pose proof (H i Hi). lra.
Qed.

Lemma relax_diag_zero (N : nat) (d : matrix) :
  nonneg N d -> diag_zero N d -> diag_zero N (relax N d).
Proof.
  intros Hn Hd i Hi.
  pose proof (relax_nonneg Hn Hi Hi). pose proof (relax_le d Hi Hi Hi).
  pose proof (Hd i Hi). lra.
Qed.

Lemma diag_zero_nonpos (N : nat) (d : matrix) : diag_zero N d -> diag_nonpos N d.
Proof. intros H i Hi. pose proof (H i Hi). lra. Qed.

(** A pass respects entrywise equality. *)
Lemma relax_matrix_eq (N : nat) (a b : matrix) :
  matrix_eq N a b -> matrix_eq N (relax N a) (relax N b).
Proof.
  assert (Hhalf : forall a b, matrix_eq N a b ->
            forall i j, (i < N)%nat -> (j < N)%nat ->
              (entry (relax N a) i j <= entry (relax N b) i j)%Q).
  { clear a b. intros a b Hab i j Hi Hj.
    destruct (relax_attained b Hi Hj) as (k & Hk & ->).
    pose proof (relax_le a Hi Hj Hk).
    pose proof (Hab i k Hi Hk). pose proof (Hab k j Hk Hj). lra. }
  intros Hab i j Hi Hj.
  assert (Hba : matrix_eq N b a).
  { intros i' j' Hi' Hj'. pose proof (Hab i' j' Hi' Hj'). lra. }
  pose proof (Hhalf a b Hab i j Hi Hj). pose proof (Hhalf b a Hba i j Hi Hj). lra.
Qed.



(** ** Equality tests *)

Lemma matrix_eqb_spec (N : nat) (a b : matrix) :
  matrix_eqb N a b = true <-> matrix_eq N a b.
Proof.
  unfold matrix_eqb, matrix_eq. rewrite forallb_forall. split.
  - intros H i j Hi Hj.
    assert (Hin : In i (seq 0 N)) by (apply in_seq; lia).
    specialize (H i Hin). rewrite forallb_forall in H.
    apply Qeq_bool_iff. apply H. apply in_seq. lia.
  - intros H i Hi. apply forallb_forall. intros j Hj.
    apply Qeq_bool_iff. apply in_seq in Hi. apply in_seq in Hj. apply H; lia.
Qed.

Lemma batch_eqb_spec (N : nat) (a b : list matrix) :
  length a = length b ->
  (batch_eqb N a b = true <->
   forall n, (n < length a)%nat -> matrix_eq N (nth n a []) (nth n b [])).
Proof.
  intros Hlen. unfold batch_eqb. rewrite forallb_forall. split.
  - intros H n Hn. apply matrix_eqb_spec.
    specialize (H (nth n a [], nth n b [])). apply H.
    rewrite <- combine_nth by exact Hlen. apply nth_In.
    rewrite length_combine. lia.
  - intros H [x y] Hin. simpl. apply matrix_eqb_spec.
    destruct (In_nth _ _ ([], []) Hin) as (n & Hn & E).
    rewrite length_combine in Hn. rewrite combine_nth in E by exact Hlen.
    injection E as <- <-. apply H. lia.
Qed.

(** ** The loop *)

Lemma length_passes (t N : nat) (dms : list matrix) :
  length (passes t N dms) = length dms.
Proof.
  induction t as [|t IH]; simpl; [reflexivity|].
  unfold passes in *. simpl. now rewrite length_map.
Qed.

Lemma nth_passes (t N : nat) (dms : list matrix) (n : nat) :
  (n < length dms)%nat ->
  nth n (passes t N dms) [] = Nat.iter t (relax N) (nth n dms []).
Proof.
  intros Hn. induction t as [|t IH]; [reflexivity|].
  unfold passes in *. simpl.
  rewrite (nth_indep _ [] (relax N [])) by (rewrite length_map; fold (passes t N dms); now rewrite length_passes).
  rewrite map_nth. now rewrite IH.
Qed.

Lemma passes_shift (t N : nat) (dms : list matrix) :
  passes t N (map (relax N) dms) = passes (S t) N dms.
Proof. unfold passes. symmetry. apply Nat.iter_succ_r. Qed.

(** A returned batch is the result of some pass that changed nothing. *)
Lemma closure_loop_returns (fuel N : nat) (dms out : list matrix) :
  closure_loop fuel N dms = Some (Ok out) ->
  (0 < N)%nat /\
  exists t, (t < fuel)%nat /\ out = passes (S t) N dms /\
            batch_eqb N (passes (S t) N dms) (passes t N dms) = true.
Proof.
  revert dms. induction fuel as [|fuel IH]; intros dms H; [discriminate|].
  simpl in H. unfold relax_pass in H.
  destruct (Nat.eqb_spec N 0) as [E | E]; [discriminate|].
  split; [lia|].
  destruct (batch_eqb N (map (relax N) dms) dms) eqn:Heq.
  - injection H as <-. exists 0%nat. split; [lia|]. split; [reflexivity | exact Heq].
  - apply IH in H. destruct H as (_ & t & Ht & -> & Hb).
    exists (S t). rewrite !passes_shift in Hb. rewrite passes_shift.
    split; [lia|]. split; [reflexivity | exact Hb].
Qed.

(** The loop returns at the first pass that changes nothing. *)
Lemma closure_loop_stops (N : nat) (dms : list matrix) (t : nat) :
  (0 < N)%nat ->
  batch_eqb N (passes (S t) N dms) (passes t N dms) = true ->
  forall fuel, (t < fuel)%nat ->
  exists out, closure_loop fuel N dms = Some (Ok out).
Proof.
  intros HN. revert dms. induction t as [|t IH]; intros dms Hb fuel Hf.
  - destruct fuel as [|fuel]; [lia|]. simpl. unfold relax_pass.
    destruct (Nat.eqb_spec N 0) as [E | E]; [lia|].
    unfold passes in Hb. simpl in Hb. rewrite Hb. eauto.
  - destruct fuel as [|fuel]; [lia|]. simpl. unfold relax_pass.
    destruct (Nat.eqb_spec N 0) as [E | E]; [lia|].
    destruct (batch_eqb N (map (relax N) dms) dms); [eauto|].
    apply IH; [|lia]. rewrite !passes_shift. exact Hb.
Qed.

(** ** Walks and the doubling argument *)

Lemma last_cons (l : list nat) (v u : nat) : last (v :: l) u = last l v.
Proof.
  revert v u. induction l as [|w l IH]; intros v u; [reflexivity|].
  change (last (v :: w :: l) u) with (last (w :: l) u).
  now rewrite !(IH w).
Qed.

Lemma last_below (N : nat) (l : list nat) (u : nat) :
  below N l -> (u < N)%nat -> (last l u < N)%nat.
Proof.
  intros Hl. revert u. induction Hl as [|v l Hv Hl IH]; intros u Hu; [exact Hu|].
  rewrite last_cons. apply IH. exact Hv.
Qed.

Lemma last_app_walk (l1 l2 : list nat) (u : nat) :
  last (l1 ++ l2) u = last l2 (last l1 u).
Proof.
  revert u. induction l1 as [|a l1 IH]; intros u; [reflexivity|].
  rewrite <- app_comm_cons, !last_cons. apply IH.
Qed.

Lemma last_cons_app (l1 l2 : list nat) (v u : nat) :
  last (l1 ++ v :: l2) u = last l2 v.
Proof. rewrite last_app_walk. apply last_cons. Qed.

Lemma wsum_app (d : matrix) (l1 l2 : list nat) (u : nat) :
  (wsum d u (l1 ++ l2) == wsum d u l1 + wsum d (last l1 u) l2)%Q.
Proof.
  revert u. induction l1 as [|v l1 IH]; intros u.
  - simpl. lra.
  - rewrite last_cons. simpl. pose proof (IH v). lra.
Qed.

Lemma wsum_nonneg (N : nat) (d : matrix) (l : list nat) (u : nat) :
  nonneg N d -> below N l -> (u < N)%nat -> (0 <= wsum d u l)%Q.
Proof.
  intros Hd Hl. revert u. induction Hl as [|v l Hv Hl IH]; intros u Hu; simpl.
  - lra.
  - pose proof (Hd u v Hu Hv). pose proof (IH v Hv). lra.
Qed.

(** More than [N] vertices below [N] repeat one of them. *)
Lemma repeated_vertex (N : nat) (l : list nat) :
  below N l -> (N < length l)%nat ->
  exists v l1 l2 l3, l = l1 ++ v :: l2 ++ v :: l3.
Proof.
  intros Hl Hlen.
  apply (not_NoDup (fun x y : nat => dec_eq_nat x y)). intros Hnd.
  assert (Hincl : incl l (seq 0 N)).
  { intros x Hx. apply in_seq. unfold below in Hl. rewrite Forall_forall in Hl.
    specialize (Hl x Hx). lia. }
  pose proof (NoDup_incl_length Hnd Hincl) as H. rewrite length_seq in H. lia.
Qed.

(** Every walk is at least as heavy as one with fewer than [N] edges between
    the same end points. *)
Lemma short_walk (N : nat) (d : matrix) :
  nonneg N d ->
  forall n l u, (length l <= n)%nat -> (u < N)%nat -> below N l ->
  exists l', below N l' /\ last l' u = last l u /\ (length l' < N)%nat /\
             (wsum d u l' <= wsum d u l)%Q.
Proof.
  intros Hd. induction n as [|n IH]; intros l u Hlen Hu Hl.
  - destruct l; [|simpl in Hlen; lia].
    exists []. repeat split; [constructor | simpl; lia | lra].
  - destruct (Nat.lt_ge_cases (length l) N) as [Hs | Hs].
    { exists l. repeat split; [exact Hl | exact Hs | lra]. }
    assert (Hul : below N (u :: l)) by (constructor; assumption).
    destruct (repeated_vertex Hul) as (v & l1 & l2 & l3 & E); [simpl; lia|].
    destruct l1 as [|a l1]; simpl in E; injection E as Eu El; subst l.
    + (* the walk comes back to its start *)
      subst v. unfold below in Hl. apply Forall_app in Hl. destruct Hl as [Hl2 Hl3].
      inversion Hl3 as [|? ? _ Hl3']; subst.
      destruct (IH l3 u) as (l' & Hb & Hlast & Hlt & Hw); try assumption.
      { rewrite length_app in Hlen. simpl in Hlen. lia. }
      exists l'. split; [exact Hb|]. split; [|split; [exact Hlt|]].
      * rewrite Hlast. symmetry. apply last_cons_app.
      * pose proof (wsum_app d (l2 ++ [u]) l3 u) as Happ.
        rewrite <- app_assoc in Happ. simpl in Happ.
        rewrite last_last in Happ.
        assert (Hc : (0 <= wsum d u (l2 ++ [u]))%Q).
        { apply (wsum_nonneg (N := N)); try assumption.
          apply Forall_app. split; [exact Hl2 | constructor; [exact Hu | constructor]]. }
        lra.
    + (* a cycle further along the walk *)
      subst a. unfold below in Hl. apply Forall_app in Hl. destruct Hl as [Hl1 Hl'].
      inversion Hl' as [|? ? Hv Hl'']; subst.
      apply Forall_app in Hl''. destruct Hl'' as [Hl2 Hl3'].
      inversion Hl3' as [|? ? _ Hl3]; subst.
      destruct (IH (l1 ++ v :: l3) u) as (l' & Hb & Hlast & Hlt & Hw); try assumption.
      { rewrite !length_app in Hlen. simpl in Hlen. rewrite length_app in Hlen.
        simpl in Hlen. rewrite length_app. simpl. lia. }
      { apply Forall_app. split; [exact Hl1 | constructor; assumption]. }
      exists l'. split; [exact Hb|]. split; [|split; [exact Hlt|]].
      * rewrite Hlast. rewrite !last_cons_app. reflexivity.
      * pose proof (wsum_app d (l1 ++ [v]) l3 u) as H1.
        rewrite <- app_assoc in H1. simpl in H1. rewrite last_last in H1.
        pose proof (wsum_app d (l1 ++ [v]) ((l2 ++ [v]) ++ l3) u) as H2.
        rewrite <- !app_assoc in H2. simpl in H2. rewrite last_last in H2.
        pose proof (wsum_app d (l2 ++ [v]) l3 v) as H3.
        rewrite <- app_assoc in H3. simpl in H3. rewrite last_last in H3.
        assert (Hc : (0 <= wsum d v (l2 ++ [v]))%Q).
        { apply (wsum_nonneg (N := N)); try assumption.
          apply Forall_app. split; [exact Hl2 | constructor; [exact Hv | constructor]]. }
        lra.
Qed.

Lemma sound_base (N : nat) (d : matrix) : sound N d d.
Proof.
  intros i j Hi Hj. exists [j]. split; [|split].
  - constructor; [exact Hj | constructor].
  - reflexivity.
  - simpl. lra.
Qed.

Lemma complete_base (N : nat) (d : matrix) : diag_zero N d -> complete N d 1 d.
Proof.
  intros Hd i l Hi Hl Hlen.
  destruct l as [|v [|w l]]; simpl in *; [| |lia].
  - pose proof (Hd i Hi). lra.
  - lra.
Qed.

Lemma sound_relax (N : nat) (d x : matrix) : sound N d x -> sound N d (relax N x).
Proof.
  intros Hx i j Hi Hj.
  destruct (relax_attained x Hi Hj) as (k & Hk & ->).
  destruct (Hx i k Hi Hk) as (l1 & Hb1 & Hlast1 & Hw1).
  destruct (Hx k j Hk Hj) as (l2 & Hb2 & Hlast2 & Hw2).
  exists (l1 ++ l2). split; [|split].
  - apply Forall_app. split; assumption.
  - rewrite last_app_walk, Hlast1. exact Hlast2.
  - pose proof (wsum_app d l1 l2 i) as H. rewrite Hlast1 in H. lra.
Qed.

Lemma complete_relax (N : nat) (d x : matrix) (L : nat) :
  complete N d L x -> complete N d (2 * L) (relax N x).
Proof.
  intros Hx i l Hi Hl Hlen.
  pose proof (firstn_skipn L l) as E.
  assert (H1 : (length (firstn L l) <= L)%nat) by (rewrite length_firstn; lia).
  assert (H2 : (length (skipn L l) <= L)%nat) by (rewrite length_skipn; lia).
  revert E H1 H2. generalize (firstn L l) (skipn L l). intros l1 l2 E H1 H2. subst l.
  unfold below in Hl. apply Forall_app in Hl. destruct Hl as [Hb1 Hb2].
  pose proof (last_below Hb1 Hi) as Hk.
  pose proof (last_below Hb2 Hk) as Hj.
  rewrite last_app_walk.
  pose proof (relax_le x Hi Hj Hk).
  pose proof (Hx i l1 Hi Hb1 H1). pose proof (Hx _ l2 Hk Hb2 H2).
  pose proof (wsum_app d l1 l2 i). lra.
Qed.

Lemma sound_iter (N : nat) (d : matrix) (t : nat) :
  sound N d (Nat.iter t (relax N) d).
Proof.
  induction t as [|t IH]; [apply sound_base | simpl; now apply sound_relax].
Qed.

Lemma complete_iter (N : nat) (d : matrix) (t : nat) :
  diag_zero N d -> complete N d (2 ^ t) (Nat.iter t (relax N) d).
Proof.
  intros Hd. induction t as [|t IH]; [now apply complete_base|].
  change (2 ^ S t)%nat with (2 * 2 ^ t)%nat. simpl Nat.iter. now apply complete_relax.
Qed.

(** Walks of fewer than [N] edges are enough. *)
Lemma complete_all (N : nat) (d x : matrix) (L : nat) :
  nonneg N d -> complete N d L x -> (N <= L + 1)%nat ->
  forall L', complete N d L' x.
Proof.
  intros Hd Hx HL L' i l Hi Hl _.
  destruct (short_walk Hd (le_n (length l)) Hi Hl) as (l' & Hb & Hlast & Hlt & Hw).
  rewrite <- Hlast. pose proof (Hx i l' Hi Hb). 
  assert (Hle : (length l' <= L)%nat) by lia. specialize (H Hle). lra.
Qed.

Lemma relax_converged (N : nat) (d x : matrix) :
  sound N d x -> (forall L, complete N d L x) -> matrix_eq N (relax N x) x.
Proof.
  intros Hs Hc i j Hi Hj.
  destruct (Hs i j Hi Hj) as (l & Hb & Hlast & Hw).
  destruct (sound_relax Hs Hi Hj) as (l' & Hb' & Hlast' & Hw').
  pose proof (Hc (length l') i l' Hi Hb' (le_n _)) as H1. rewrite Hlast' in H1.
  pose proof (complete_relax (Hc (length l)) Hi Hb) as H2.
  rewrite Hlast in H2. assert (Hle : (length l <= 2 * length l)%nat) by lia.
  specialize (H2 Hle). lra.
Qed.

(** After [t] passes with [N <= 2 ^ t] a further pass changes nothing. *)
Lemma doubling_converges (N : nat) (d : matrix) (t : nat) :
  nonneg N d -> diag_zero N d -> (N <= 2 ^ t)%nat ->
  matrix_eq N (Nat.iter (S t) (relax N) d) (Nat.iter t (relax N) d).
Proof.
  intros Hn Hd Ht. simpl. apply (relax_converged (d := d)).
  - apply sound_iter.
  - apply (complete_all Hn (complete_iter t Hd)). lia.
Qed.

(** ** Invariants of the iterated pass *)

Lemma iter_nonneg (N : nat) (d : matrix) (t : nat) :
  nonneg N d -> nonneg N (Nat.iter t (relax N) d).
Proof. intros H. induction t; [exact H | simpl; now apply relax_nonneg]. Qed.

Lemma iter_diag_zero (N : nat) (d : matrix) (t : nat) :
  nonneg N d -> diag_zero N d -> diag_zero N (Nat.iter t (relax N) d).
Proof.
  intros Hn Hd. induction t; [exact Hd|].
  simpl. apply relax_diag_zero; [now apply iter_nonneg | assumption].
Qed.

Lemma iter_diag_nonpos (N : nat) (d : matrix) (t : nat) :
  diag_nonpos N d -> diag_nonpos N (Nat.iter t (relax N) d).
Proof. intros H. induction t; [exact H | simpl; now apply relax_diag_nonpos]. Qed.

Lemma iter_decreasing (N : nat) (d : matrix) (t i j : nat) :
  diag_nonpos N d -> (i < N)%nat -> (j < N)%nat ->
  (entry (Nat.iter t (relax N) d) i j <= entry d i j)%Q.
Proof.
  intros Hd Hi Hj. induction t as [|t IH]; simpl; [lra|].
  pose proof (relax_decreasing (iter_diag_nonpos t Hd) Hi Hj). lra.
Qed.


Lemma closure_loop_more_fuel (fuel N : nat) (dms : list matrix) (r : res (list matrix)) :
  closure_loop fuel N dms = Some r ->
  forall fuel', (fuel <= fuel')%nat -> closure_loop fuel' N dms = Some r.
Proof.
  revert dms. induction fuel as [|fuel IH]; intros dms H fuel' Hf; [discriminate|].
  destruct fuel' as [|fuel']; [lia|]. simpl in *.
  destruct (relax_pass N dms) as [dms' | e]; [|exact H].
  destruct (batch_eqb N dms' dms); [exact H|].
  apply IH; [exact H | lia].
Qed.

(** What a returned batch looks like, instance by instance. *)
Lemma closure_loop_instance (fuel N : nat) (dms out : list matrix) :
  closure_loop fuel N dms = Some (Ok out) ->
  length out = length dms /\
  exists t, (t < fuel)%nat /\
    forall n, (n < length dms)%nat ->
      nth n out [] = relax N (Nat.iter t (relax N) (nth n dms [])) /\
      matrix_eq N (nth n out []) (Nat.iter t (relax N) (nth n dms [])).
Proof.
  intros H. apply closure_loop_returns in H.
  destruct H as (HN & t & Ht & -> & Hb).
  split; [apply length_passes|].
  exists t. split; [exact Ht|]. intros n Hn.
  rewrite batch_eqb_spec in Hb by (now rewrite !length_passes).
  specialize (Hb n). rewrite length_passes in Hb. specialize (Hb Hn).
  rewrite !nth_passes in Hb by exact Hn. rewrite nth_passes by exact Hn.
  split; [reflexivity | exact Hb].
Qed.

(** ** The metric closure *)

(** Within [ceil(log2 N) + 1] passes the loop has returned. *)
Lemma closure_loop_within_bound (N : nat) (dms : list matrix) :
  (0 < N)%nat -> metric_input N dms ->
  exists out, closure_loop (S (Nat.log2_up N)) N dms = Some (Ok out).
Proof.
  intros HN Hin.
  assert (Hconv : batch_eqb N (passes (S (Nat.log2_up N)) N dms)
                              (passes (Nat.log2_up N) N dms) = true).
  { apply batch_eqb_spec; [now rewrite !length_passes|].
    intros n Hn. rewrite length_passes in Hn. rewrite !nth_passes by exact Hn.
    destruct (Hin (nth n dms [])) as [Hnn Hdz]; [now apply nth_In|].
    apply doubling_converges; try assumption.
    apply (Nat.log2_log2_up_spec N HN). }
  apply (closure_loop_stops dms HN Hconv). lia.
Qed.

(** C6. Bounds monotonicity of the closure: on a batch of non-negative
    matrices with zero diagonal, every entry of a returned matrix is at most
    the entry it started from, no entry is negative, and the diagonal is
    still exactly 0; for N >= 1 the closure does return. *)
Theorem closure_monotone_nonneg (N : nat) (dms : list matrix) :
  metric_input N dms ->
  (forall fuel out,
     closure_loop fuel N dms = Some (Ok out) ->
     length out = length dms /\
     forall n i j, (n < length dms)%nat -> (i < N)%nat -> (j < N)%nat ->
       (entry (nth n out []) i j <= entry (nth n dms []) i j)%Q /\
       (0 <= entry (nth n out []) i j)%Q /\
       (entry (nth n out []) i i == 0)%Q) /\
  ((0 < N)%nat ->
   exists out, forall fuel, (Nat.log2_up N + 1 <= fuel)%nat ->
     closure_loop fuel N dms = Some (Ok out)).
Proof.
  intros Hin. split.
  - intros fuel out H. apply closure_loop_instance in H.
    destruct H as (Hlen & t & _ & Hinst). split; [exact Hlen|].
    intros n i j Hn Hi Hj. destruct (Hinst n Hn) as [E _]. rewrite E.
    destruct (Hin (nth n dms [])) as [Hnn Hdz]; [now apply nth_In|].
    change (relax N (Nat.iter t (relax N) (nth n dms [])))
      with (Nat.iter (S t) (relax N) (nth n dms [])).
    split; [|split].
    + apply iter_decreasing; [now apply diag_zero_nonpos | assumption | assumption].
    + now apply iter_nonneg.
    + now apply iter_diag_zero.
  - intros HN. destruct (closure_loop_within_bound HN Hin) as (out & Hout).
    exists out. intros fuel Hf. apply (closure_loop_more_fuel _ _ Hout). lia.
Qed.

Lemma scenario_matrix_metric_input : metric_input 3 [scenario_matrix].
Proof.
  intros d [<- | []]. split.
  - intros i j Hi Hj.
    destruct i as [|[|[|i]]]; [| | |lia];
      (destruct j as [|[|[|j]]]; [| | |lia]); vm_compute; discriminate.
  - intros i Hi. destruct i as [|[|[|i]]]; [| | |lia]; reflexivity.
Qed.

Lemma closure_monotone_nonneg_witness :
  exists out,
    closure_loop 5 3 [scenario_matrix] = Some (Ok out) /\
    length out = 1%nat /\
    forall n i j, (n < 1)%nat -> (i < 3)%nat -> (j < 3)%nat ->
      (entry (nth n out []) i j <= entry (nth n [scenario_matrix] []) i j)%Q /\
      (0 <= entry (nth n out []) i j)%Q /\
      (entry (nth n out []) i i == 0)%Q.
Proof.
  eexists. split; [vm_compute; reflexivity|].
  apply (proj1 (@closure_monotone_nonneg 3 [scenario_matrix]
                  scenario_matrix_metric_input) 5%nat).
  vm_compute. reflexivity.
Defined.



(** ** The generator *)




(** ** Sorting and the permutation check *)

Lemma insert_perm (x : Z) (l : list Z) : Permutation (insert x l) (x :: l).
Proof.
  induction l as [|y l IH]; simpl; [reflexivity|].
  destruct (x <=? y)%Z; [reflexivity|].
  rewrite IH. apply perm_swap.
Qed.

Lemma sort_perm (l : list Z) : Permutation (sort l) l.
Proof.
  induction l as [|x l IH]; simpl; [reflexivity|].
  rewrite insert_perm. now constructor.
Qed.

Lemma insert_sorted (x : Z) (l : list Z) :
  StronglySorted Z.le l -> StronglySorted Z.le (insert x l).
Proof.
  induction 1 as [|y l Hl IH Hy]; simpl.
  - repeat constructor.
  - destruct (Z.leb_spec x y) as [Hxy | Hxy].
    + constructor; [now constructor|].
      constructor; [exact Hxy|].
      rewrite Forall_forall in Hy |- *. intros z Hz. specialize (Hy z Hz). lia.
    + constructor; [exact IH|].
      rewrite Forall_forall in Hy |- *. intros z Hz.
      apply (Permutation_in _ (insert_perm x l)) in Hz.
      destruct Hz as [<- | Hz]; [lia | auto].
Qed.

Lemma sort_sorted (l : list Z) : StronglySorted Z.le (sort l).
Proof.
  induction l as [|x l IH]; simpl; [constructor | now apply insert_sorted].
Qed.

Lemma sorted_perm_unique (l1 l2 : list Z) :
  StronglySorted Z.le l1 -> StronglySorted Z.le l2 -> Permutation l1 l2 -> l1 = l2.
Proof.
  intros H1. revert l2. induction H1 as [|x l1 Hl1 IH Hx]; intros l2 H2 Hp.
  - now apply Permutation_nil in Hp.
  - destruct H2 as [|y l2 Hl2 Hy].
    + apply Permutation_sym, Permutation_nil in Hp. discriminate.
    + assert (E : x = y).
      { rewrite Forall_forall in Hx, Hy.
        assert (Hxin : In x (y :: l2)) by (apply (Permutation_in _ Hp); now left).
        assert (Hyin : In y (x :: l1))
          by (apply (Permutation_in _ (Permutation_sym Hp)); now left).
        destruct Hxin as [-> | Hxin]; [reflexivity|].
        destruct Hyin as [-> | Hyin]; [reflexivity|].
        specialize (Hx y Hyin). specialize (Hy x Hxin). lia. }
      subst y. f_equal. apply IH; [exact Hl2|].
      now apply Permutation_cons_inv in Hp.
Qed.

Lemma arange_sorted_from (n s : nat) :
  StronglySorted Z.le (map Z.of_nat (seq s n)).
Proof.
  revert s. induction n as [|n IH]; intros s; simpl; constructor.
  - apply IH.
  - rewrite Forall_forall. intros z Hz. apply in_map_iff in Hz.
    destruct Hz as (k & <- & Hk). apply in_seq in Hk. lia.
Qed.

Lemma list_eqb_spec (a b : list Z) : list_eqb a b = true <-> a = b.
Proof.
  revert b. induction a as [|x a IH]; intros [|y b]; simpl; split;
    try discriminate; try reflexivity.
  - intros H. apply andb_true_iff in H. destruct H as [H1 H2].
    apply Z.eqb_eq in H1. apply IH in H2. congruence.
  - intros H. injection H as -> ->. rewrite Z.eqb_refl. simpl. now apply IH.
Qed.

Lemma valid_tour_sort (a : list Z) :
  valid_tour a = true <-> sort a = arange (length a).
Proof.
  unfold valid_tour. rewrite list_eqb_spec. split; congruence.
Qed.

Lemma valid_tour_perm (a : list Z) :
  valid_tour a = true <-> Permutation a (arange (length a)).
Proof.
  rewrite valid_tour_sort. split.
  - intros E. rewrite <- E. apply Permutation_sym, sort_perm.
  - intros Hp. apply sorted_perm_unique.
    + apply sort_sorted.
    + apply arange_sorted_from.
    + rewrite sort_perm. exact Hp.
Qed.

Lemma forallb_false (A : Type) (f : A -> bool) (l : list A) :
  forallb f l = false <-> exists x, In x l /\ f x = false.
Proof.
  induction l as [|a l IH]; simpl.
  - split; [discriminate | intros (x & [] & _)].
  - rewrite andb_false_iff, IH. split.
    + intros [H | (x & Hx & Hf)]; eauto.
    + intros (x & [<- | Hx] & Hf); eauto.
Qed.

(** ** Errors of the indexing *)

Lemma mapM_raise (A B : Type) (f : A -> res B) (l : list A) (e : exn) :
  mapM f l = Raise e -> exists a, In a l /\ f a = Raise e.
Proof.
  induction l as [|a l IH]; simpl; [discriminate|].
  destruct (f a) as [b | e'] eqn:Ea; simpl.
  - destruct (mapM f l) as [bs | e'']; simpl; [discriminate|].
    intros H. injection H as <-. destruct IH as (x & Hx & Hf); eauto.
  - intros H. injection H as <-. eauto.
Qed.


Lemma index_dim_raise (n : nat) (z : Z) (e : exn) :
  index_dim n z = Raise e -> e = IndexError.
Proof.
  unfold index_dim. destruct (_ && _); [discriminate|].
  destruct (_ && _); [discriminate|]. congruence.
Qed.

Lemma gather_raise (d : matrix) (s t : Z) (e : exn) :
  gather d s t = Raise e -> e = IndexError.
Proof.
  unfold gather. destruct (index_dim (length d) s) as [r | e'] eqn:Er; simpl.
  - destruct (index_dim (length (nth r d [])) t) as [c | e''] eqn:Ec; simpl.
    + discriminate.
    + intros H. injection H as <-. eapply index_dim_raise; eauto.
  - intros H. injection H as <-. eapply index_dim_raise; eauto.
Qed.

Lemma gather_row_raise (d : matrix) (src tgt : list Z) (e : exn) :
  gather_row d src tgt = Raise e -> e = IndexError.
Proof.
  unfold gather_row. intros H. apply mapM_raise in H.
  destruct H as (p & _ & H). eapply gather_raise; eauto.
Qed.

Lemma index_batch_raise (dms : list matrix) (src tgt : list (list Z)) (e : exn) :
  index_batch dms src tgt = Raise e -> e = IndexError.
Proof.
  unfold index_batch.
  destruct (Nat.eqb _ _); [|destruct (Nat.eqb _ _); [|destruct (Nat.eqb _ _)]];
    intros H; try (apply mapM_raise in H; destruct H as (p & _ & H);
                   eapply gather_row_raise; eauto).
  congruence.
Qed.

(** C2. [get_reward] fails with the "Invalid tour" assertion if and only if
    some action sequence of the batch is not a permutation of [0, N), N its
    length; equivalently, sorting it does not give [0, 1, ..., N-1].  When it
    fails no cost is returned. *)
Theorem get_reward_invalid_tour (td : TensorDict) (actions : list (list Z)) :
  (get_reward td actions = Raise (AssertionError "Invalid tour") <->
   exists a, In a actions /\ ~ Permutation a (arange (length a))) /\
  (get_reward td actions = Raise (AssertionError "Invalid tour") <->
   exists a, In a actions /\ sort a <> arange (length a)) /\
  (get_reward td actions = Raise (AssertionError "Invalid tour") ->
   forall costs, get_reward td actions <> Ok costs).
Proof.
  assert (Hcheck : get_reward td actions = Raise (AssertionError "Invalid tour") <->
                   forallb valid_tour actions = false).
  { unfold get_reward. destruct (forallb valid_tour actions); simpl.
    - split; [|discriminate].
      destruct (index_batch _ _ _) as [g | e] eqn:E; simpl; [discriminate|].
      apply index_batch_raise in E. subst e. discriminate.
    - split; reflexivity. }
  split; [|split].
  - rewrite Hcheck, forallb_false. split; intros (a & Ha & H); exists a; split; auto.
    + rewrite <- valid_tour_perm. congruence.
    + rewrite <- valid_tour_perm in H. now destruct (valid_tour a).
  - rewrite Hcheck, forallb_false. split; intros (a & Ha & H); exists a; split; auto.
    + rewrite <- valid_tour_sort. congruence.
    + rewrite <- valid_tour_sort in H. now destruct (valid_tour a).
  - intros H costs. rewrite H. discriminate.
Qed.

Lemma get_reward_invalid_tour_witness :
  get_reward invalid_td [[0; 1; 1; 3]%Z] = Raise (AssertionError "Invalid tour") /\
  forall costs, get_reward invalid_td [[0; 1; 1; 3]%Z] <> Ok costs.
Proof.
  split; [reflexivity|].
  apply (proj2 (proj2 (get_reward_invalid_tour invalid_td [[0; 1; 1; 3]%Z]))).
  reflexivity.
Defined.

(** ** Tour cost *)

Lemma nth_map_lt (A B : Type) (f : A -> B) (l : list A) (n : nat) (d : B) (d' : A) :
  (n < length l)%nat -> nth n (map f l) d = f (nth n l d').
Proof.
  intros Hn. rewrite (nth_indep _ d (f d')) by (now rewrite length_map).
  apply map_nth.
Qed.

Lemma list_as_map (A : Type) (l : list A) (d : A) :
  l = map (fun t => nth t l d) (seq 0 (length l)).
Proof.
  apply (nth_ext _ _ d d).
  - now rewrite length_map, length_seq.
  - intros n Hn. symmetry. now apply nth_map_seq.
Qed.


Lemma length_roll (a : list Z) : length (roll 1 a) = length a.
Proof.
  unfold roll. rewrite length_app, length_skipn, length_firstn. lia.
Qed.







Lemma nth_instances (dms : list matrix) (actions : list (list Z)) (n : nat) :
  length dms = length actions -> (n < length actions)%nat ->
  nth n (combine dms (combine actions (map (roll 1) actions))) ([], ([], [])) =
  (nth n dms [], (nth n actions [], roll 1 (nth n actions []))).
Proof.
  intros Hlen Hn.
  rewrite combine_nth
    by (rewrite length_combine, length_map, Nat.min_id; exact Hlen).
  rewrite combine_nth by (now rewrite length_map).
  rewrite (nth_map_lt (roll 1) actions [] [] Hn). reflexivity.
Qed.




(** ** The transition function *)




















(** ** Episodes *)


















(** ** An action that is not legal *)





(** ** The observation *)

Lemma step_observation (bts : list Z -> res Z) (td : TensorDict) (action : list Z)
    (out : NextDict) :
  _step bts td action = Ok out -> td_observation (next out) = td_observation td.
Proof.
  unfold _step. destruct (bts (td_i td)) as [s | e]; simpl; [|discriminate].
  destruct (mapM _ _) as [available | e]; simpl; [|discriminate].
  intros H. injection H as <-. reflexivity.
Qed.

Lemma get_reward_observation (td1 td2 : TensorDict) (actions : list (list Z)) :
  td_observation td1 = td_observation td2 ->
  get_reward td1 actions = get_reward td2 actions.
Proof. intros E. unfold get_reward. now rewrite E. Qed.

(** C10. Whatever distance matrices are supplied to [_reset] (through [td]
    or through [init_obs]), they are stored unchecked as the observation of
    the state; every later step, legal or not, hands the observation on
    unchanged, so [get_reward] on any later state reads exactly the supplied
    matrices. *)
Theorem reset_stores_observation (bts : list Z -> res Z) (self : ATSPEnv)
    (fuel : nat) (td_arg : option TensorDict) (init_obs : option (list matrix))
    (bs : option nat) (dms : list matrix) :
  (0 <= num_loc self)%Z ->
  supplied td_arg init_obs = Some dms ->
  bs = None \/ bs = Some (length dms) ->
  exists td0,
    _reset fuel self td_arg init_obs bs = Some (Ok td0) /\
    td_observation td0 = dms /\
    (forall td action out,
       _step bts td action = Ok out -> td_observation (next out) = td_observation td) /\
    forall td', any_run bts td0 td' ->
      td_observation td' = dms /\
      forall actions, get_reward td' actions = get_reward td0 actions.
Proof.
  intros HN Hsup Hbs. unfold _reset. unfold supplied in Hsup. rewrite Hsup.
  destruct (Z.ltb_spec (num_loc self) 0) as [Hneg | _]; [lia|].
  assert (EB : match bs with Some b => b | None => length dms end = length dms)
    by (destruct Hbs as [-> | ->]; reflexivity).
  rewrite EB, Nat.eqb_refl. simpl. eexists. split; [reflexivity|].
  split; [reflexivity|]. split; [apply step_observation|].
  intros td' Hrun.
  assert (Hobs : forall td td', any_run bts td td' ->
                   td_observation td' = td_observation td).
  { clear. intros td td' Hrun.
    induction Hrun as [td | td action out td' _ Hs _ IH]; [reflexivity|].
    rewrite IH. eapply step_observation; eauto. }
  apply Hobs in Hrun. simpl in Hrun. split; [exact Hrun|].
  intros actions. apply get_reward_observation. exact Hrun.
Qed.

Lemma reset_stores_observation_witness :
  exists td0,
    _reset 0 env3 None (Some [not_a_metric]) None = Some (Ok td0) /\
    td_observation td0 = [not_a_metric] /\
    (forall td action out,
       _step first_elem td action = Ok out ->
       td_observation (next out) = td_observation td) /\
    forall td', any_run first_elem td0 td' ->
      td_observation td' = [not_a_metric] /\
      forall actions, get_reward td' actions = get_reward td0 actions.
Proof.
  apply (@reset_stores_observation first_elem env3 0 None (Some [not_a_metric]) None).
  - vm_compute. discriminate.
  - reflexivity.
  - now left.
Defined.

(** ** Construction parameters *)











(** ** Scenarios *)

(** Scenario A, end to end: reset, the actions 0, 1 and 2, and the score of
    the tour on the supplied matrix. *)
Example scenario_A :
  _reset 0 env3 None (Some [scenario_matrix]) None = Some (Ok scenario_reset) /\
  _step first_elem scenario_reset [0%Z] =
    Ok {| next := scenario_step1; reward := [NegInf]; done := [false] |} /\
  _step first_elem scenario_step1 [1%Z] =
    Ok {| next := scenario_step2; reward := [NegInf]; done := [false] |} /\
  _step first_elem scenario_step2 [2%Z] =
    Ok {| next := scenario_td; reward := [NegInf]; done := [true] |} /\
  get_reward scenario_td [[0; 1; 2]%Z] = Ok [15%Q].
Proof. repeat split. Qed.

(** An action outside the mask makes [scatter] raise. *)
Example step_out_of_range :
  _step first_elem scenario_step2 [5%Z] = Raise RuntimeError /\
  _step first_elem scenario_step2 [(-1)%Z] = Raise RuntimeError.
Proof. split; reflexivity. Qed.

(** A generated matrix need not be symmetric. *)
Example generated_matrix_asymmetric :
  exists d,
    generate_data 5 env3_harmonic 1 = Some (Ok [d]) /\
    ~ (entry d 0 1 == entry d 1 0)%Q.
Proof.
  eexists. split; [vm_compute; reflexivity|].
  vm_compute. discriminate.
Qed.

(** A sequence shorter than the matrix passes the check of [get_reward],
    which only looks at the length of the sequence. *)
Example short_sequence_scored :
  get_reward scenario_td [[0; 1]%Z] = Ok [3%Q].
Proof. reflexivity. Qed.

(** * Further properties of the environment *)

(** ** The generator: shortest walks and the range of the entries *)





Lemma matrix_eq_sym (N : nat) (a b : matrix) : matrix_eq N a b -> matrix_eq N b a.
Proof. intros H i j Hi Hj. pose proof (H i j Hi Hj). lra. Qed.

Lemma matrix_eq_trans (N : nat) (a b c : matrix) :
  matrix_eq N a b -> matrix_eq N b c -> matrix_eq N a c.
Proof.
  intros H1 H2 i j Hi Hj. pose proof (H1 i j Hi Hj). pose proof (H2 i j Hi Hj). lra.
Qed.

(** Once a pass changes nothing, no later pass does. *)
Lemma stable_forever (N : nat) (x : matrix) (k : nat) :
  matrix_eq N (relax N x) x -> matrix_eq N (Nat.iter k (relax N) x) x.
Proof.
  intros H. induction k as [|k IH]; simpl.
  - intros i j _ _. lra.
  - apply (@matrix_eq_trans N _ (relax N x)); [|exact H].
    now apply relax_matrix_eq.
Qed.

Lemma iter_plus (k t N : nat) (d : matrix) :
  Nat.iter (k + t) (relax N) d = Nat.iter k (relax N) (Nat.iter t (relax N) d).
Proof. induction k as [|k IH]; simpl; [reflexivity | now rewrite IH]. Qed.

(** Two stable iterates of one matrix agree. *)
Lemma stable_iterates_agree (N : nat) (d : matrix) (t t' : nat) :
  matrix_eq N (Nat.iter (S t) (relax N) d) (Nat.iter t (relax N) d) ->
  matrix_eq N (Nat.iter (S t') (relax N) d) (Nat.iter t' (relax N) d) ->
  matrix_eq N (Nat.iter (S t) (relax N) d) (Nat.iter (S t') (relax N) d).
Proof.
  assert (Hle : forall t t', (t <= t')%nat ->
            matrix_eq N (Nat.iter (S t) (relax N) d) (Nat.iter t (relax N) d) ->
            matrix_eq N (Nat.iter t' (relax N) d) (Nat.iter t (relax N) d)).
  { clear. intros t t' Hle Ht. replace t' with ((t' - t) + t)%nat by lia.
    rewrite iter_plus. now apply stable_forever. }
  intros Ht Ht'.
  apply (@matrix_eq_trans N _ (Nat.iter t (relax N) d)); [exact Ht|].
  apply matrix_eq_sym.
  apply (@matrix_eq_trans N _ (Nat.iter t' (relax N) d)); [exact Ht'|].
  destruct (Nat.le_ge_cases t t') as [H | H].
  - now apply Hle.
  - apply matrix_eq_sym. now apply Hle.
Qed.

Lemma passes_single (k N : nat) (d : matrix) :
  passes k N [d] = [Nat.iter k (relax N) d].
Proof.
  unfold passes. induction k as [|k IH]; [reflexivity|]. simpl. now rewrite IH.
Qed.








Lemma batch_eqb_single (N : nat) (a b : matrix) :
  batch_eqb N [a] [b] = matrix_eqb N a b.
Proof. unfold batch_eqb. cbn [combine forallb fst snd]. apply andb_true_r. Qed.

(** X3. Instances of a batch are closed independently: the matrix returned
    for an instance of a batch is, entry by entry, the matrix returned when
    that instance is closed on its own. *)
Theorem closure_instances_independent (fuel N : nat) (dms out : list matrix) :
  closure_loop fuel N dms = Some (Ok out) ->
  forall n, (n < length dms)%nat ->
  exists o,
    closure_loop fuel N [nth n dms []] = Some (Ok [o]) /\
    matrix_eq N o (nth n out []).
Proof.
  intros H n Hn.
  pose proof (closure_loop_returns _ _ _ H) as (HN & T & HT & _ & _).
  apply closure_loop_instance in H. destruct H as (_ & T' & HT' & Hinst).
  destruct (Hinst n Hn) as [E Hfix]. rewrite E in Hfix.
  set (d := nth n dms []) in *.
  assert (Hb : batch_eqb N (passes (S T') N [d]) (passes T' N [d]) = true).
  { rewrite !passes_single, batch_eqb_single.
    apply matrix_eqb_spec. exact Hfix. }
  destruct (closure_loop_stops [d] HN Hb HT') as (out' & Hout').
  pose proof (closure_loop_returns _ _ _ Hout') as (_ & t & Ht & Eo & Hbt).
  rewrite !passes_single in Hbt. rewrite passes_single in Eo.
  rewrite batch_eqb_single in Hbt. apply matrix_eqb_spec in Hbt.
  exists (Nat.iter (S t) (relax N) d). split.
  - rewrite Hout', Eo. reflexivity.
  - rewrite E. now apply (@stable_iterates_agree N d t T').
Qed.

Lemma closure_instances_independent_witness :
  exists out,
    closure_loop 5 3 mixed_batch = Some (Ok out) /\
    exists o,
      closure_loop 5 3 [nth 1 mixed_batch []] = Some (Ok [o]) /\
      matrix_eq 3 o (nth 1 out []).
Proof.
  eexists. split; [vm_compute; reflexivity|].
  apply (@closure_instances_independent 5 3 mixed_batch).
  - vm_compute. reflexivity.
  - simpl. lia.
Defined.

(** ** The reward: what is scored and what raises *)

Lemma valid_instance_scorable (d : matrix) (a : list Z) :
  valid_instance d a -> scorable d a.
Proof. intros [Hp Hsq]. split; [exact Hp|]. exists (length a). split; [exact Hsq | lia]. Qed.

Lemma mapM_ok_inv (A B : Type) (f : A -> res B) (l : list A) (bs : list B) :
  mapM f l = Ok bs -> forall a, In a l -> exists b, f a = Ok b.
Proof.
  revert bs. induction l as [|x l IH]; intros bs H a Ha; [destruct Ha|].
  simpl in H. destruct (f x) as [b | e] eqn:Ex; simpl in H; [|discriminate].
  destruct (mapM f l) as [bs' | e] eqn:El; simpl in H; [|discriminate].
  destruct Ha as [<- | Ha]; [eauto | eapply IH; eauto].
Qed.







(** X5. A valid sequence that is longer than its matrix has rows is not
    scored: the indexing raises an IndexError. *)
Theorem get_reward_index_error (td : TensorDict) (actions : list (list Z)) (n : nat) :
  length (td_observation td) = length actions ->
  (forall a, In a actions -> Permutation a (arange (length a))) ->
  (n < length actions)%nat ->
  (length (nth n (td_observation td) []) < length (nth n actions []))%nat ->
  get_reward td actions = Raise IndexError.
Proof.
  intros Hlen Hperm Hn Hshort. unfold get_reward.
  assert (Hall : forallb valid_tour actions = true).
  { apply forallb_forall. intros a Ha. apply valid_tour_perm. now apply Hperm. }
  rewrite Hall. simpl.
  destruct (index_batch (td_observation td) actions (map (roll 1) actions))
    as [g | e] eqn:E; simpl.
  - exfalso. unfold index_batch in E. rewrite (proj2 (Nat.eqb_eq _ _) Hlen) in E.
    set (d := nth n (td_observation td) []) in *.
    set (a := nth n actions []) in *.
    assert (Hin : In (d, (a, roll 1 a))
                     (combine (td_observation td) (combine actions (map (roll 1) actions)))).
    { unfold d, a.
      rewrite <- (@nth_instances (td_observation td) actions n Hlen Hn).
      apply nth_In. rewrite !length_combine, length_map. lia. }
    destruct (mapM_ok_inv _ _ E _ Hin) as (row & Hrow). simpl in Hrow.
    assert (Ha : In a actions) by (apply nth_In; exact Hn).
    assert (Hz : In (Z.of_nat (length d)) a).
    { apply (Permutation_in _ (Permutation_sym (Hperm a Ha))).
      apply in_map. apply in_seq. lia. }
    destruct (In_nth _ _ 0%Z Hz) as (k & Hk & Ek).
    assert (Hpair : In (nth k a 0%Z, nth k (roll 1 a) 0%Z) (combine a (roll 1 a))).
    { rewrite <- combine_nth by (now rewrite length_roll).
      apply nth_In. rewrite length_combine, length_roll. lia. }
    unfold gather_row in Hrow.
    destruct (mapM_ok_inv _ _ Hrow _ Hpair) as (q & Hq). simpl in Hq.
    rewrite Ek in Hq. unfold gather, index_dim in Hq.
    destruct (Z.leb_spec 0 (Z.of_nat (length d))); [|lia].
    destruct (Z.ltb_spec (Z.of_nat (length d)) (Z.of_nat (length d))); [lia|].
    simpl in Hq.
    destruct (Z.ltb_spec (Z.of_nat (length d)) 0); [lia|].
    rewrite andb_false_r in Hq. discriminate.
  - apply index_batch_raise in E. now subst e.
Qed.

Lemma get_reward_index_error_witness :
  get_reward scenario_td [[0; 3; 1; 2]%Z] = Raise IndexError.
Proof.
  apply (@get_reward_index_error scenario_td [[0; 3; 1; 2]%Z] 0).
  - reflexivity.
  - intros a [<- | []]. apply valid_tour_perm. reflexivity.
  - simpl. lia.
  - simpl. lia.
Defined.




(** ** The reward: rotations and reversals of a tour *)

















(** ** Episodes and the actions they record *)






Lemma trace_legal_run (bts : list Z -> res Z) (td td' : TensorDict)
    (acts : list (list Z)) :
  trace bts td acts td' -> legal_run bts td td'.
Proof.
  induction 1 as [td | td action out acts td' Hl Hs _ IH].
  - apply steps_refl.
  - eapply steps_step; eauto.
Qed.














(** ** The first node *)





(** ** Steps that are not legal *)

Lemma scatter_raise (m : list bool) (index : list Z) (e : exn) :
  scatter m index false = Raise e -> e = RuntimeError.
Proof.
  revert m. induction index as [|z rest IH]; intros m; simpl; [discriminate|].
  destruct (_ && _); [apply IH | congruence].
Qed.


Lemma mapM_nth (A B : Type) (f : A -> res B) (l : list A) (bs : list B)
    (d : A) (d' : B) :
  mapM f l = Ok bs ->
  length bs = length l /\
  forall n, (n < length l)%nat -> f (nth n l d) = Ok (nth n bs d').
Proof.
  revert bs. induction l as [|x l IH]; intros bs H; simpl in H.
  - injection H as <-. split; [reflexivity | intros n Hn; simpl in Hn; lia].
  - destruct (f x) as [b | e] eqn:Ex; simpl in H; [|discriminate].
    destruct (mapM f l) as [bs' | e] eqn:El; simpl in H; [|discriminate].
    injection H as <-. destruct (IH bs' eq_refl) as [Hlen Hn].
    split; [simpl; now rewrite Hlen|].
    intros [|n] Hlt; simpl; [exact Ex | apply Hn; simpl in Hlt; lia].
Qed.





(** X14. An action that is not an index of a non-empty mask is not accepted:
    [scatter] raises a RuntimeError and no next state is returned.  Negative
    actions are not counted from the end. *)
Theorem step_out_of_range_raises (bts : list Z -> res Z) (td : TensorDict)
    (action : list Z) (s : Z) (n : nat) :
  bts (td_i td) = Ok s ->
  length action = length (td_action_mask td) -> (n < length action)%nat ->
  nth n (td_action_mask td) [] <> [] ->
  ~ (0 <= nth n action 0 < Z.of_nat (length (nth n (td_action_mask td) [])))%Z ->
  _step bts td action = Raise RuntimeError.
Proof.
  intros Hs Hal Hn Hne Hout. unfold _step. rewrite Hs. simpl.
  destruct (mapM _ _) as [available | e] eqn:Hmap; simpl.
  - exfalso. destruct (mapM_nth _ _ ([], 0%Z) [] Hmap) as [_ Hnth].
    rewrite length_combine in Hnth.
    assert (Hn' : (n < Nat.min (length (td_action_mask td)) (length action))%nat) by lia.
    specialize (Hnth n Hn'). rewrite combine_nth in Hnth by now symmetry.
    simpl in Hnth.
    destruct (nth n (td_action_mask td) []) as [|b m] eqn:Em; [congruence|].
    simpl in Hnth.
    destruct (Z.leb_spec 0 (nth n action 0%Z));
      destruct (Z.ltb_spec (nth n action 0%Z) (Z.pos (Pos.of_succ_nat (length m))));
      simpl in Hnth; try discriminate.
    apply Hout. simpl length. lia.
  - apply mapM_raise in Hmap. destruct Hmap as (p & _ & Hp).
    apply scatter_raise in Hp. now subst e.
Qed.

Lemma step_out_of_range_raises_witness :
  _step first_elem scenario_step2 [3%Z] = Raise RuntimeError /\
  _step first_elem scenario_step2 [(-1)%Z] = Raise RuntimeError.
Proof.
  split.
  - apply (@step_out_of_range_raises first_elem scenario_step2 [3%Z] 2 0);
      [reflexivity | reflexivity | simpl; lia | discriminate | simpl; lia].
  - apply (@step_out_of_range_raises first_elem scenario_step2 [(-1)%Z] 2 0);
      [reflexivity | reflexivity | simpl; lia | discriminate | simpl; lia].
Defined.

(** ** Reset without matrices *)



(** ** The edges drawn by [render] *)







(** ** The cost of a tour on a generated instance *)







(** ** An environment without nodes *)


